(** * NormCap: version comparison and the screenshot-portal client

    A shallow embedding of two modules of NormCap:

    - [normcap/gui/update_check.py]: the methods [_is_new_version],
      [_parse_version], [_show_update_message] and [check] of
      [UpdateChecker];
    - [normcap/screengrab/dbus_portal.py]: the class
      [OrgFreedesktopPortalScreenshot], the synchronous wrapper
      [_synchronized_capture] and the two-phase [capture].

    Python strings are [string]s (the version strings and the portal
    messages are ASCII), Python lists and tuples are [list]s, the [dict]
    passed to the bus call is a [gmap], and a raised exception is a
    value of the type [exn]. *)

From Stdlib Require Import NArith Ascii String List Lia Bool.
From stdpp Require Import base option strings gmap list.

(** ** Python prelude: exceptions and results *)

(** The exception classes the two modules raise or let escape.

    [IndexError], [ValueError] and [TimeoutError] are Python builtins.

    Modelled from the spec: [ScreenshotRequestError] and
    [ScreenshotResponseError] are declared in the package module
    [normcap.screengrab] and only imported by [dbus_portal.py].  The
    error taxonomy lists request-rejected, response-error(code) and
    timed-out as three separate kinds, so the two imported classes are
    constructors of their own, neither of them a subclass of the builtin
    [TimeoutError].
    Only the response error keeps its payload (the code its message is
    formatted from); the other message texts are not modelled. *)
Inductive exn : Type :=
| IndexError
| ValueError
| TimeoutError
| ScreenshotRequestError
| ScreenshotResponseError (code : N).

(** What evaluating a Python expression gives: a value or a raised
    exception. *)
Inductive pyres (A : Type) : Type :=
| Ok (a : A)
| Raise (e : exn).
Arguments Ok {A} a.
Arguments Raise {A} e.

#[global] Instance pyres_ret : MRet pyres := fun _ a => Ok a.
#[global] Instance pyres_bind : MBind pyres := fun _ _ f r =>
  match r with
  | Ok a => f a
  | Raise e => Raise e
  end.

(** [xs[i]] on a list or tuple. *)
Definition index {A : Type} (xs : list A) (i : nat) : pyres A :=
  match xs !! i with
  | Some x => Ok x
  | None => Raise IndexError
  end.

(** [s[0]] on a string: the first character. *)
Definition str_first (s : string) : pyres ascii :=
  match s with
  | String c _ => Ok c
  | EmptyString => Raise IndexError
  end.

(** Prepends a character to the first piece of a split in progress. *)
Definition cons_head (c : ascii) (pieces : list string) : list string :=
  match pieces with
  | h :: t => String c h :: t
  | [] => [String c EmptyString]
  end.

(** No character of [s] is [c]. *)
Fixpoint lacks (c : ascii) (s : string) : bool :=
  match s with
  | EmptyString => true
  | String x rest => negb (Ascii.eqb x c) && lacks c rest
  end.

(** ** [update_check.py] *)

Module UpdateCheck.

(** The pattern [r"\.|\-"]: one dot or one dash. *)
Definition is_sep (c : ascii) : bool :=
  Ascii.eqb c "."%char || Ascii.eqb c "-"%char.

(** [re.split(r"\.|\-", s)]: the pieces between separators, empty ones
    included; a string without separator is its own single piece. *)
Fixpoint re_split (s : string) : list string :=
  match s with
  | EmptyString => [EmptyString]
  | String c rest =>
      if is_sep c then EmptyString :: re_split rest
      else cons_head c (re_split rest)
  end.

Fixpoint zeros (n : nat) : string :=
  match n with
  | O => EmptyString
  | S k => String "0"%char (zeros k)
  end.

Definition is_sign (c : ascii) : bool :=
  Ascii.eqb c "+"%char || Ascii.eqb c "-"%char.

(** [s.zfill(width)]: left-padded with ["0"] up to [width]; the padding
    goes after a leading sign; a string that is long enough is
    returned as it is. *)
Definition zfill (width : nat) (s : string) : string :=
  let n := String.length s in
  if (width <=? n)%nat then s
  else
    let pad := zeros (width - n) in
    match s with
    | String c rest => if is_sign c then String c (pad +:+ rest) else pad +:+ s
    | EmptyString => pad
    end.

(** [a < b] on single characters: by code point. *)
Definition chr_lt (a b : ascii) : bool := (nat_of_ascii a <? nat_of_ascii b)%nat.

(** [a < b] on [str]: lexicographic by code point, a proper prefix is
    smaller. *)
Fixpoint str_lt (a b : string) : bool :=
  match a, b with
  | _, EmptyString => false
  | EmptyString, String _ _ => true
  | String x a', String y b' =>
      if Ascii.eqb x y then str_lt a' b' else chr_lt x y
  end.

(** [a < b] on tuples of strings: the first pair of unequal items decides;
    without one, the shorter tuple is smaller. *)
Fixpoint tuple_lt (a b : list string) : bool :=
  match a, b with
  | _, [] => false
  | [], _ :: _ => true
  | x :: a', y :: b' =>
      if String.eqb x y then tuple_lt a' b' else str_lt x y
  end.

(** [a > b] on tuples. *)
Definition tuple_gt (a b : list string) : bool := tuple_lt b a.

Definition is_digit (c : ascii) : bool :=
  (48 <=? nat_of_ascii c)%nat && (nat_of_ascii c <=? 57)%nat.

(** [re.sub(r"[^0-9]", "", s)]: the digits of [s], in order. *)
Fixpoint re_sub_non_digits (s : string) : string :=
  match s with
  | EmptyString => EmptyString
  | String c rest =>
      if is_digit c then String c (re_sub_non_digits rest)
      else re_sub_non_digits rest
  end.

Fixpoint digits_value (acc : N) (s : string) : N :=
  match s with
  | EmptyString => acc
  | String c rest => digits_value (10 * acc + (N_of_ascii c - 48))%N rest
  end.

(** [int(s)] for a string of ASCII digits, which is all the comparator
    passes to it; the empty string is not a number. *)
Definition int (s : string) : pyres N :=
  match s with
  | EmptyString => Raise ValueError
  | _ => Ok (digits_value 0%N s)
  end.

(** [UpdateChecker._is_new_version(current, other)]. *)
Definition _is_new_version (current other : string) : pyres bool :=
  let current_tuple := map (zfill 8) (re_split current) in
  let other_tuple := map (zfill 8) (re_split other) in
  if tuple_gt (take 3 other_tuple) (take 3 current_tuple) then Ok true
  else if tuple_lt (take 3 other_tuple) (take 3 current_tuple) then Ok false
  else if (length other_tuple =? 3)%nat && (length current_tuple =? 3)%nat
  then Ok false
  else if negb (length other_tuple =? length current_tuple)%nat
  then Ok (length other_tuple <? length current_tuple)%nat
  else
    current_3 ← index current_tuple 3;
    current_3_0 ← str_first current_3;
    other_3 ← index other_tuple 3;
    other_3_0 ← str_first other_3;
    if negb (Ascii.eqb current_3_0 other_3_0)
    then Ok (chr_lt current_3_0 other_3_0)
    else
      let current_suffix_digits := re_sub_non_digits current_3 in
      let other_suffix_digits := re_sub_non_digits other_3 in
      other_n ← int other_suffix_digits;
      current_n ← int current_suffix_digits;
      Ok (current_n <? other_n)%N.

(** Version strings of the shape the docstring assumes: three numeric
    components and an optional ["-alpha.N"] or ["-beta.N"] suffix. *)
Inductive prerelease : Type :=
| Release
| Alpha (n : string)
| Beta (n : string).

Fixpoint all_digits (s : string) : bool :=
  match s with
  | EmptyString => true
  | String c rest => is_digit c && all_digits rest
  end.

(** [\d+]: a non-empty run of digits. *)
Definition is_number (s : string) : bool :=
  match s with
  | EmptyString => false
  | _ => all_digits s
  end.

Definition prerelease_ok (p : prerelease) : bool :=
  match p with
  | Release => true
  | Alpha n | Beta n => is_number n
  end.

Definition prerelease_text (p : prerelease) : string :=
  match p with
  | Release => EmptyString
  | Alpha n => "-alpha." +:+ n
  | Beta n => "-beta." +:+ n
  end.

Definition version_text (major minor patch : string) (p : prerelease) : string :=
  major +:+ "." +:+ minor +:+ "." +:+ patch +:+ prerelease_text p.

(** *** [_parse_version] and [_show_update_message] *)

(** The double quote. *)
Definition quote_char : ascii := "034"%char.

Definition newline : ascii := "010"%char.

(** [\s] on the code points below 256: the ASCII white space with the
    four separators 28..31, the next-line control and the no-break
    space. *)
Definition is_space (c : ascii) : bool :=
  let n := nat_of_ascii c in
  ((9 <=? n)%nat && (n <=? 13)%nat) || ((28 <=? n)%nat && (n <=? 32)%nat)
  || (n =? 133)%nat || (n =? 160)%nat.

(** The longest run of digits at the head of [s], and what follows. *)
Fixpoint span_digits (s : string) : string * string :=
  match s with
  | EmptyString => (EmptyString, EmptyString)
  | String c rest =>
      if is_digit c
      then let '(digits, after) := span_digits rest in (String c digits, after)
      else (EmptyString, s)
  end.

(** [\d+] at the head of [s].  What follows it in the two patterns is
    never a digit, so the longest run is the only one that can match. *)
Definition digits1 (s : string) : option (string * string) :=
  match span_digits s with
  | (EmptyString, _) => None
  | found => Some found
  end.

(** A literal at the head of [s]: what follows it. *)
Fixpoint literal (lit s : string) : option string :=
  match lit, s with
  | EmptyString, _ => Some s
  | String _ _, EmptyString => None
  | String x lit', String y s' =>
      if Ascii.eqb x y then literal lit' s' else None
  end.

(** [\s*] at the head of [s]: what follows it. *)
Fixpoint skip_spaces (s : string) : string :=
  match s with
  | EmptyString => EmptyString
  | String c rest => if is_space c then skip_spaces rest else s
  end.

(** The common end of the two patterns, [(\d+\.\d+\.\d+)] and a double
    quote, at the head of [s]: the group. *)
Definition version_group (s : string) : option string :=
  '(major, s) ← digits1 s;
  s ← literal "." s;
  '(minor, s) ← digits1 s;
  s ← literal "." s;
  '(patch, s) ← digits1 s;
  _ ← literal (String quote_char EmptyString) s;
  Some (major +:+ "." +:+ minor +:+ "." +:+ patch).

(** The pattern for the atom feed, at the head of [s]. *)
Definition match_atom (s : string) : option string :=
  s ← literal "/releases/tag/v" s;
  version_group s.

(** The pattern for the JSON index, at the head of [s]. *)
Definition match_json (s : string) : option string :=
  s ← literal (String quote_char ("version" +:+ String quote_char ":")) s;
  s ← literal (String quote_char EmptyString) (skip_spaces s);
  version_group s.

(** [re.search]: the match at the leftmost position that has one; of the
    match, its group 1. *)
Fixpoint re_search (at_head : string → option string) (s : string) : option string :=
  match at_head s with
  | Some group => Some group
  | None =>
      match s with
      | EmptyString => None
      | String _ rest => re_search at_head rest
      end
  end.

(** [URLS] of [normcap.gui.constants], as far as this module reads it. *)
Record urls : Type := {
  releases : string;
  changelog : string;
  releases_atom : string;
  pypi_json : string;
}.

Inductive cursor_shape : Type :=
| ArrowCursor
| CrossCursor.

(** What the checker does that can be seen from outside. *)
Inductive ui_action : Type :=
| on_version_checked (version : string)
| on_click_get_new_version (url : string)
| set_cursor (shape : cursor_shape)
| message_box_exec (text informative_text : string)
| log_error
| downloader_get (url : string).

(** The attributes of the checker and the two constants it imports:
    [version] is [normcap.__version__]. *)
Record checker : Type := {
  packaged : bool;
  version : string;
  URLS : urls;
}.

Definition info_text_packaged : string :=
  "You can download the new version for your operating system from GitHub."
    +:+ String newline (String newline "Do you want to visit the release website now?").

Definition info_text_pip : string :=
  "You should be able to upgrade from command line with 'pip install normcap --upgrade'."
    +:+ String newline (String newline "Do you want to view the changelog on github?").

(** [_show_update_message]: [choice] is what [message_box.exec_()]
    returns. *)
Definition _show_update_message (self : checker) (new_version : string)
    (choice : N) : list ui_action :=
  let text :=
    "<b>NormCap v" +:+ new_version +:+ " is available.</b> (You have v"
      +:+ version self +:+ ")" in
  let '(info_text, update_url) :=
    if packaged self then (info_text_packaged, releases (URLS self))
    else (info_text_pip, changelog (URLS self)) in
  [set_cursor ArrowCursor; message_box_exec text info_text; set_cursor CrossCursor]
    ++ (if (choice =? 1024)%N then [on_click_get_new_version update_url] else []).

(** [_parse_version]: [text] is the download as
    [data.decode("utf-8", "ignore")] gives it, taken with code points
    below 256.  The actions, and the exception the comparison let
    escape, if it did. *)
Definition _parse_version (self : checker) (text : string) (choice : N)
  : list ui_action * option exn :=
  let regex := if packaged self then match_atom else match_json in
  match re_search regex text with
  | Some (String c rest as newest_version) =>
      match _is_new_version (version self) newest_version with
      | Ok true =>
          (on_version_checked newest_version
             :: _show_update_message self newest_version choice, None)
      | Ok false => ([on_version_checked newest_version], None)
      | Raise e => ([on_version_checked newest_version], Some e)
      end
  | _ => ([log_error], None)
  end.

(** [check]. *)
Definition check (self : checker) : list ui_action :=
  [downloader_get (if packaged self then releases_atom (URLS self)
                   else pypi_json (URLS self))].

(** The number a run of digits stands for. *)
Definition dval (s : string) : N := digits_value 0%N s.

(** Triples of numbers, compared item by item. *)
Definition triple_compare (a b : N * N * N) : comparison :=
  let '(a1, a2, a3) := a in
  let '(b1, b2, b3) := b in
  match (a1 ?= b1)%N with
  | Eq => match (a2 ?= b2)%N with
          | Eq => (a3 ?= b3)%N
          | c => c
          end
  | c => c
  end.

(** A number of at most eight digits, the width the comparator pads
    to. *)
Definition is_short_number (s : string) : bool :=
  is_number s && (String.length s <=? 8)%nat.

(** Sample data: a packaged checker of version 0.4.0. *)
Definition sample_checker : checker :=
  {| packaged := true;
     version := "0.4.0";
     URLS := {| releases := "https://github.com/dynobo/normcap/releases";
                changelog := "https://github.com/dynobo/normcap/blob/main/CHANGELOG.md";
                releases_atom := "https://github.com/dynobo/normcap/releases.atom";
                pypi_json := "https://pypi.org/pypi/normcap/json" |} |}.

(** Sample data: an entry of the atom feed. *)
Definition sample_feed : string :=
  "<link href=" +:+ String quote_char
    ("https://github.com/dynobo/normcap/releases/tag/v0.4.1"
       +:+ String quote_char ">").

(** No character of [s] is matched by the split pattern. *)
Fixpoint no_sep (s : string) : bool :=
  match s with
  | EmptyString => true
  | String c rest => negb (is_sep c) && no_sep rest
  end.

Definition is_release (p : prerelease) : bool :=
  match p with
  | Release => true
  | _ => false
  end.

(** The pieces [re.split] cuts the suffix into. *)
Definition prerelease_pieces (p : prerelease) : list string :=
  match p with
  | Release => []
  | Alpha n => ["alpha"; n]
  | Beta n => ["beta"; n]
  end.

End UpdateCheck.


(** ** [dbus_portal.py] *)

Module DbusPortal.

Definition TIMEOUT_SECONDS : N := 10.

(** *** Values on the bus *)

(** The values of the options [dict] of the bus call. *)
Inductive variant : Type :=
| VBool (b : bool)
| VStr (s : string).

(** [interface.call(method, parent_window, options)]. *)
Record bus_call : Type := {
  method : string;
  parent_window : string;
  options : gmap string variant;
}.

(** An argument of a bus message, by its Qt type. *)
Inductive dbus_arg : Type :=
| QDBusObjectPath (path : string)
| QString (s : string)
| QUInt (n : N).

(** What [interface.call] hands back. *)
Inductive py_value : Type :=
| PyNone
| QDBusMessage (arguments : list dbus_arg).

(** The [Response] signal of the request object: [message.arguments()]
    is a pair whose first item is the response code; [text] is
    [str(message)], which the URI is cut out of. *)
Record signal_message : Type := {
  code : N;
  text : string;
}.

(** What the client reports through its two outgoing signals. *)
Inductive emission : Type :=
| on_result (uri : string)
| on_exception (e : exn).

(** *** [str.split] with a separator of several characters *)

(** [skip] counts the characters of a separator found earlier that are
    still to be passed over. *)
Fixpoint str_split_from (sep : string) (skip : nat) (s : string) : list string :=
  match s with
  | EmptyString => [EmptyString]
  | String c rest =>
      match skip with
      | S k => str_split_from sep k rest
      | O =>
          if String.prefix sep s
          then EmptyString :: str_split_from sep (String.length sep - 1) rest
          else cons_head c (str_split_from sep 0 rest)
      end
  end.

(** [s.split(sep)] for a non-empty [sep]. *)
Definition str_split (sep s : string) : list string := str_split_from sep 0 s.

Definition dquote : ascii := "034"%char.

(** The literal the URI follows in [str(message)]: [[Variant(QString): ]
    and a double quote. *)
Definition uri_open : string := "[Variant(QString): " +:+ String dquote EmptyString.

(** The literal that ends the URI: a double quote, then []}]. *)
Definition uri_close : string := String dquote "]}".

(** *** [OrgFreedesktopPortalScreenshot] *)

(** The attributes of the object; of [timeout_timer], its interval and
    whether it is running. *)
Record portal : Type := {
  interactive : bool;
  timeout_sec : N;
  timer_active : bool;
}.

(** [OrgFreedesktopPortalScreenshot(interactive=..., timeout_sec=...)]:
    the timer is created, not started. *)
Definition init (interactive : bool) (timeout_sec : N) : portal :=
  {| interactive := interactive; timeout_sec := timeout_sec; timer_active := false |}.

Definition timer_start (self : portal) : portal :=
  {| interactive := interactive self; timeout_sec := timeout_sec self;
     timer_active := true |}.

Definition timer_stop (self : portal) : portal :=
  {| interactive := interactive self; timeout_sec := timeout_sec self;
     timer_active := false |}.

(** One run of a method or slot of the object: the object afterwards,
    what it emitted, in order, and the exception that ended the run, if
    one did. *)
Record slot_run : Type := {
  after : portal;
  emitted : list emission;
  raised : option exn;
}.




(** The call [grab_full_desktop] makes. *)
Definition screenshot_call (self : portal) (random_str : string) : bus_call :=
  {| method := "Screenshot";
     parent_window := EmptyString;
     options := <["interactive" := VBool false]>
                  (<["handle_token" := VStr ("normcap_" +:+ random_str)]> ∅) |}.

(** The test on the acknowledgement: a message, with arguments, the
    first of them an object path. *)
Definition request_accepted (message : py_value) : bool :=
  match message with
  | QDBusMessage arguments =>
      match arguments with
      | QDBusObjectPath _ :: _ => true
      | _ => false
      end
  | PyNone => false
  end.

(** [grab_full_desktop]: [message] is what the bus call returned. *)
Definition grab_full_desktop (self : portal) (message : py_value) : slot_run :=
  {| after := self;
     emitted := if request_accepted message then []
                else [on_exception ScreenshotRequestError];
     raised := None |}.

(** [_timeout_triggered], the slot of the single-shot timer. *)
Definition _timeout_triggered (self : portal) : slot_run :=
  {| after := timer_stop self;
     emitted := [on_exception TimeoutError];
     raised := None |}.

(** [got_signal]: the slot of the [Response] signal. *)
Definition got_signal (self : portal) (message : signal_message) : slot_run :=
  let self := timer_stop self in
  let errors :=
    if negb (code message =? 0)%N
    then [on_exception (ScreenshotResponseError (code message))]
    else [] in
  match index (str_split uri_open (text message)) 1 with
  | Raise e => {| after := self; emitted := errors; raised := Some e |}
  | Ok uri =>
      match index (str_split uri_close uri) 0 with
      | Raise e => {| after := self; emitted := errors; raised := Some e |}
      | Ok uri =>
          {| after := self; emitted := errors ++ [on_result uri]; raised := None |}
      end
  end.

(** What the event loop can deliver to the object while a request is
    pending: the timer's deadline and a [Response] signal. *)
Inductive event : Type :=
| TimerTimeout
| Response (message : signal_message).

(** A stopped timer does not fire. *)
Definition dispatch (self : portal) (ev : event) : slot_run :=
  match ev with
  | TimerTimeout =>
      if timer_active self then _timeout_triggered self
      else {| after := self; emitted := []; raised := None |}
  | Response message => got_signal self message
  end.

(** All the object emits when the events reach it one after the other,
    whoever listens. *)
Fixpoint client_emissions (self : portal) (evs : list event) : list emission :=
  match evs with
  | [] => []
  | ev :: rest =>
      let run := dispatch self ev in
      emitted run ++ client_emissions (after run) rest
  end.

(** *** [_synchronized_capture] *)

(** How a blocking call ends: it returns, it raises, or it never comes
    back. *)
Inductive outcome (A : Type) : Type :=
| Returned (a : A)
| Raised (e : exn)
| Blocked.
Arguments Returned {A} a.
Arguments Raised {A} e.
Arguments Blocked {A}.

(** What surrounds one attempt: the random part of the token, what the
    portal answers to the call, and the events that reach the object
    afterwards, in order.  When they are used up and the timer still
    runs, its deadline comes next. *)
Record attempt : Type := {
  random_str : string;
  ack : py_value;
  incoming : list event;
}.

(** The locals of [_synchronized_capture] that its closures share, and
    whether [loop.exit()] was called. *)
Record loop_state : Type := {
  self : portal;
  result : list string;
  exceptions : list exn;
  exited : bool;
}.

(** [_signal_triggered] and [_exception_triggered], by the signal they
    are connected to. *)
Definition deliver (w : loop_state) (e : emission) : loop_state :=
  match e with
  | on_result uri =>
      {| self := self w; result := result w ++ [uri];
         exceptions := exceptions w; exited := true |}
  | on_exception error =>
      {| self := self w; result := result w;
         exceptions := exceptions w ++ [error]; exited := true |}
  end.

(** A slot has run: the object is updated and each emission has called
    its listener.  An exception raised inside a slot ends the slot, not
    the loop. *)
Definition absorb (w : loop_state) (run : slot_run) : loop_state :=
  fold_left deliver (emitted run)
    {| self := after run; result := result w;
       exceptions := exceptions w; exited := exited w |}.

(** [loop.exec()]: events are handled until [loop.exit()] was called.
    [None]: the loop waits for ever. *)
Fixpoint loop_exec (w : loop_state) (pending : list event) : option loop_state :=
  if exited w then Some w
  else
    match pending with
    | ev :: rest => loop_exec (absorb w (dispatch (self w) ev)) rest
    | [] =>
        if timer_active (self w)
        then Some (absorb w (dispatch (self w) TimerTimeout))
        else None
    end.

(** [_synchronized_capture] up to the return of [loop.exec()]: the timer
    is started, and the first thing the loop runs is
    [grab_full_desktop]. *)
Definition run_loop (interactive : bool) (env : attempt) : option loop_state :=
  let portal := timer_start (init interactive TIMEOUT_SECONDS) in
  let w := {| self := portal; result := []; exceptions := []; exited := false |} in
  loop_exec (absorb w (grab_full_desktop portal (ack env))) (incoming env).

Section Images.

(** The image type of Qt, and
    [split_full_desktop_to_screens(QtGui.QImage(urlparse(uri).path))],
    which belongs to other modules. *)
Variable QImage : Type.
Variable load_screens : string → list QImage.

(** The rest of [_synchronized_capture]: the first recorded exception is
    raised; without one, the first recorded URI is loaded. *)
Definition conclude (w : loop_state) : outcome (list QImage) :=
  match exceptions w with
  | error :: _ => Raised error
  | [] =>
      match index (result w) 0 with
      | Ok uri => Returned (load_screens uri)
      | Raise e => Raised e
      end
  end.

Definition _synchronized_capture (interactive : bool) (env : attempt)
  : outcome (list QImage) :=
  match run_loop interactive env with
  | Some w => conclude w
  | None => Blocked
  end.

(** *** [capture] *)

(** What [capture] does that can be seen from outside, in order. *)
Inductive action : Type :=
| SynchronizedCapture (interactive : bool) (sent : bus_call)
| WindowShow
| WindowHide.

(** [while not window.isActiveWindow(): ...]: [polls] are the answers of
    the successive [isActiveWindow()] calls; after them the window stays
    inactive.  [true]: the loop is left. *)
Fixpoint wait_active (polls : list bool) : bool :=
  match polls with
  | [] => false
  | true :: _ => true
  | false :: rest => wait_active rest
  end.

(** [os.getenv(key)] *)
Definition getenv (environ : gmap string string) (key : string) : option string :=
  environ !! key.

(** Truth value of an [Optional[str]]. *)
Definition truthy (v : option string) : bool :=
  match v with
  | None | Some EmptyString => false
  | Some _ => true
  end.

(** The call an attempt sends: [_synchronized_capture] builds the object
    with its [interactive] argument and has it run [grab_full_desktop]. *)
Definition sent_call (interactive : bool) (env : attempt) : bus_call :=
  screenshot_call (timer_start (init interactive TIMEOUT_SECONDS)) (random_str env).

(** [capture()]: [phase1] and [phase2] surround the first and the second
    attempt. *)
Definition capture (environ : gmap string string)
    (phase1 : attempt) (polls : list bool) (phase2 : attempt)
  : list action * outcome (list QImage) :=
  let log := [SynchronizedCapture false (sent_call false phase1)] in
  match _synchronized_capture false phase1 with
  | Returned result => (log, Returned result)
  | Blocked => (log, Blocked)
  | Raised TimeoutError =>
      if negb (truthy (getenv environ "FLATPAK_ID")) then (log, Returned [])
      else
        let log := (log ++ [WindowShow])%list in
        if wait_active polls then
          let log := (log ++ [SynchronizedCapture true (sent_call true phase2)])%list in
          match _synchronized_capture true phase2 with
          | Returned result => ((log ++ [WindowHide])%list, Returned result)
          | Raised TimeoutError => (log, Returned [])
          | Raised e => (log, Raised e)
          | Blocked => (log, Blocked)
          end
        else (log, Blocked)
  | Raised e => (log, Raised e)
  end.

End Images.

Arguments conclude {QImage} load_screens w.
Arguments _synchronized_capture {QImage} load_screens interactive env.
Arguments capture {QImage} load_screens environ phase1 polls phase2.

(** Sample data: what [str(message)] looks like around a URI. *)
Definition response_text (uri : string) : string :=
  "QDBusMessage(type=Signal, signature=ua{sv}) {uri: " +:+ uri_open +:+ uri
    +:+ uri_close +:+ ")".

(** Sample data: [QImage] stood for by the path it is loaded from, the
    whole desktop being one screen. *)
Definition one_screen (uri : string) : list string := [uri].



(** Puts [before] in front of the first piece of a split. *)
Definition prepend (before : string) (pieces : list string) : list string :=
  match pieces with
  | h :: t => (before +:+ h) :: t
  | [] => [before]
  end.

Definition returned {A : Type} (o : outcome A) : bool :=
  match o with
  | Returned _ => true
  | _ => false
  end.

Definition is_window_hide (a : action) : bool :=
  match a with
  | WindowHide => true
  | _ => false
  end.

(** The notice of the second phase was taken off the screen. *)
Definition notice_hidden (log : list action) : bool := existsb is_window_hide log.

(** An event that gets nothing reported once the timer is stopped: the
    deadline itself, and a response with code 0 whose text has no
    opening bracket, so that no URI can be cut out of it. *)
Definition unreported (ev : event) : bool :=
  match ev with
  | TimerTimeout => true
  | Response message => (code message =? 0)%N && lacks "["%char (text message)
  end.



Definition is_timeout_error (e : exn) : bool :=
  match e with
  | TimeoutError => true
  | _ => false
  end.


(** The timer is stopped and no timeout is on record. *)
Definition deadline_off (w : loop_state) : Prop :=
  timer_active (self w) = false
  ∧ forallb (λ e, negb (is_timeout_error e)) (exceptions w) = true.

(** Not a timeout that is being reported. *)
Definition not_timeout (e : emission) : bool :=
  match e with
  | on_exception error => negb (is_timeout_error error)
  | on_result _ => true
  end.

(** Sample data: an acknowledgement that carries an object path. *)
Definition accepting_ack : py_value :=
  QDBusMessage
    [QDBusObjectPath "/org/freedesktop/portal/desktop/request/1_23/normcap_abcdefgh"].

Definition tmp_x_png : string := "file:///tmp/x.png".

(** Sample data: an attempt the portal accepts and then answers with
    the events [evs]. *)
Definition accepted_then (evs : list event) : attempt :=
  {| random_str := "abcdefgh"; ack := accepting_ack; incoming := evs |}.

(** Sample data: an attempt whose call comes back without an object
    path. *)
Definition refused : attempt :=
  {| random_str := "abcdefgh"; ack := QDBusMessage []; incoming := [] |}.

(** Sample data: the environment of a Flatpak sandbox. *)
Definition flatpak_environ : gmap string string :=
  {["FLATPAK_ID" := "com.github.dynobo.normcap"]}.

Definition timed_out {A : Type} (o : outcome A) : bool :=
  match o with
  | Raised TimeoutError => true
  | _ => false
  end.

Definition is_window_show (a : action) : bool :=
  match a with
  | WindowShow => true
  | _ => false
  end.

Definition is_interactive_capture (a : action) : bool :=
  match a with
  | SynchronizedCapture true _ => true
  | _ => false
  end.

(** The second phase of [capture] was entered: its notice was shown. *)
Definition retry_started (log : list action) : bool := existsb is_window_show log.

(** The second phase got as far as its [_synchronized_capture]. *)
Definition retry_requested (log : list action) : bool :=
  existsb is_interactive_capture log.

End DbusPortal.

(** * Properties *)

(** ** The version comparator *)

Section UpdateCheckFacts.
Import UpdateCheck.

Lemma str_lt_irrefl (s : string) : str_lt s s = false.
Proof.
  induction s as [|c s IH]; simpl; [reflexivity|].
  now rewrite Ascii.eqb_refl.
Qed.

Lemma tuple_lt_irrefl (t : list string) : tuple_lt t t = false.
Proof.
  induction t as [|x t IH]; simpl; [reflexivity|].
  now rewrite String.eqb_refl.
Qed.

Lemma digit_not_sep (c : ascii) : is_digit c = true → is_sep c = false.
Proof.
  destruct c as [[] [] [] [] [] [] [] []]; vm_compute; congruence.
Qed.

Lemma all_digits_no_sep (s : string) : all_digits s = true → no_sep s = true.
Proof.
  induction s as [|c s IH]; simpl; [reflexivity|].
  intros [Hc Hs]%andb_true_iff.
  now rewrite (digit_not_sep c Hc), IH.
Qed.

Lemma is_number_no_sep (s : string) : is_number s = true → no_sep s = true.
Proof.
  destruct s; [discriminate|]. apply all_digits_no_sep.
Qed.

Lemma re_split_no_sep (s : string) : no_sep s = true → re_split s = [s].
Proof.
  induction s as [|c s IH]; simpl; [reflexivity|].
  intros [Hc Hs]%andb_true_iff.
  apply negb_true_iff in Hc. now rewrite Hc, IH.
Qed.

Lemma append_cons (c : ascii) (s t : string) :
  String c s +:+ t = String c (s +:+ t).
Proof. reflexivity. Qed.

Lemma append_empty (s : string) : s +:+ EmptyString = s.
Proof.
  induction s as [|c s IH]; [reflexivity|]. now rewrite append_cons, IH.
Qed.

Lemma re_split_piece (a : string) (c : ascii) (b : string) :
  no_sep a = true → is_sep c = true →
  re_split (a +:+ String c b) = a :: re_split b.
Proof.
  intros Ha Hc. induction a as [|x a IH].
  - change (EmptyString +:+ String c b) with (String c b).
    simpl. now rewrite Hc.
  - rewrite append_cons. simpl in *.
    apply andb_true_iff in Ha as [Hx Ha].
    apply negb_true_iff in Hx. now rewrite Hx, IH.
Qed.

Lemma re_split_prerelease (p : prerelease) (patch : string) :
  no_sep patch = true → prerelease_ok p = true →
  re_split (patch +:+ prerelease_text p) = patch :: prerelease_pieces p.
Proof.
  intros Hp Hok. destruct p as [|n|n]; simpl in *.
  - rewrite append_empty. now apply re_split_no_sep.
  - change ("-alpha." +:+ n) with (String "-" ("alpha" +:+ String "." n)).
    rewrite (re_split_piece patch "-" _ Hp eq_refl).
    rewrite (re_split_piece "alpha" "." n eq_refl eq_refl).
    now rewrite (re_split_no_sep n (is_number_no_sep n Hok)).
  - change ("-beta." +:+ n) with (String "-" ("beta" +:+ String "." n)).
    rewrite (re_split_piece patch "-" _ Hp eq_refl).
    rewrite (re_split_piece "beta" "." n eq_refl eq_refl).
    now rewrite (re_split_no_sep n (is_number_no_sep n Hok)).
Qed.

Lemma re_split_version (major minor patch : string) (p : prerelease) :
  is_number major = true → is_number minor = true → is_number patch = true →
  prerelease_ok p = true →
  re_split (version_text major minor patch p)
  = major :: minor :: patch :: prerelease_pieces p.
Proof.
  intros HM Hm Hp Hok. unfold version_text.
  change ("." +:+ minor +:+ "." +:+ patch +:+ prerelease_text p)
    with (String "." (minor +:+ String "." (patch +:+ prerelease_text p))).
  rewrite (re_split_piece major "." _ (is_number_no_sep _ HM) eq_refl).
  rewrite (re_split_piece minor "." _ (is_number_no_sep _ Hm) eq_refl).
  now rewrite (re_split_prerelease p patch (is_number_no_sep _ Hp) Hok).
Qed.

(** Two versions of one release: the other one is newer exactly when it
    has no suffix and the current one has one. *)
Lemma same_release_decision (major minor patch : string) (cur oth : prerelease) :
  is_number major = true → is_number minor = true → is_number patch = true →
  prerelease_ok cur = true → prerelease_ok oth = true →
  _is_new_version (version_text major minor patch cur)
                  (version_text major minor patch oth)
  = Ok (is_release oth && negb (is_release cur)).
Proof.
  intros HM Hm Hp Hc Ho. unfold _is_new_version.
  rewrite !re_split_version by assumption.
  cbn [map take firstn]. unfold tuple_gt. rewrite !tuple_lt_irrefl.
  generalize (zfill 8 major) (zfill 8 minor) (zfill 8 patch).
  intros zM zm zp.
  destruct cur as [|a|a], oth as [|b|b]; cbn [prerelease_pieces map];
    generalize (zfill 8 a) || idtac; generalize (zfill 8 b) || idtac;
    intros; reflexivity.
Qed.

(** C4: the four reference vectors, as the code evaluates them.  The
    first three come out as listed: a higher patch number is newer, a
    version is not newer than itself, a release is newer than its beta.
    The fourth does not: for ["0.3.0-alpha.2"] against
    ["0.3.0-alpha.10"] the comparator answers [False], since the digits
    it compares are those of the zero-padded suffix word, ["000alpha"]
    on both sides, and the numbers after the dot are never looked at. *)
Theorem is_new_version_reference_vectors :
  _is_new_version "0.3.0" "0.3.1" = Ok true
  ∧ _is_new_version "0.3.0" "0.3.0" = Ok false
  ∧ _is_new_version "0.3.0-beta.1" "0.3.0" = Ok true
  ∧ _is_new_version "0.3.0-alpha.2" "0.3.0-alpha.10" = Ok false.
Proof. repeat split; vm_compute; reflexivity. Qed.

(** C5: with equal major.minor.patch, an alpha and a beta pre-release
    are not ordered by their suffix words: whatever the numbers, the
    beta is not reported as newer than the alpha.  The first characters
    compared are those of the zero-padded words, ["0"] and ["0"]. *)
Theorem beta_not_newer_than_alpha (major minor patch a b : string) :
  is_number major = true → is_number minor = true → is_number patch = true →
  is_number a = true → is_number b = true →
  _is_new_version (version_text major minor patch (Alpha a))
                  (version_text major minor patch (Beta b))
  = Ok false.
Proof.
  intros HM Hm Hp Ha Hb.
  now rewrite (same_release_decision major minor patch (Alpha a) (Beta b)).
Qed.

Lemma beta_not_newer_than_alpha_witness :
  _is_new_version "0.3.0-alpha.1" "0.3.0-beta.1" = Ok false.
Proof.
  exact (beta_not_newer_than_alpha "0" "3" "0" "1" "1"
           eq_refl eq_refl eq_refl eq_refl eq_refl).
Defined.

(** C10: the comparator is irreflexive on version strings of the form
    major.minor.patch with an optional ["-alpha.N"] or ["-beta.N"]
    suffix: compared with itself, such a version is not newer, and the
    comparison returns (it raises nothing). *)
Theorem is_new_version_irreflexive (major minor patch : string) (p : prerelease) :
  is_number major = true → is_number minor = true → is_number patch = true →
  prerelease_ok p = true →
  _is_new_version (version_text major minor patch p)
                  (version_text major minor patch p)
  = Ok false.
Proof.
  intros HM Hm Hp Hok.
  rewrite (same_release_decision major minor patch p p) by assumption.
  now destruct p.
Qed.

Lemma is_new_version_irreflexive_witness :
  _is_new_version "0.3.0-alpha.2" "0.3.0-alpha.2" = Ok false
  ∧ _is_new_version "1.12.7" "1.12.7" = Ok false.
Proof.
  split.
  - exact (is_new_version_irreflexive "0" "3" "0" (Alpha "2")
             eq_refl eq_refl eq_refl eq_refl).
  - exact (is_new_version_irreflexive "1" "12" "7" Release
             eq_refl eq_refl eq_refl eq_refl).
Defined.

End UpdateCheckFacts.

(** ** The portal client *)

Section DbusPortalFacts.
Import DbusPortal.

Context {QImage : Type} (load_screens : string → list QImage).

(** Once [loop.exit()] was called, nothing more is dispatched. *)
Lemma loop_exec_exited (w : loop_state) (pending : list event) :
  exited w = true → loop_exec w pending = Some w.
Proof. intros H. destruct pending; simpl; now rewrite H. Qed.

Lemma deliver_exits (w : loop_state) (e : emission) : exited (deliver w e) = true.
Proof. now destruct e. Qed.

(** The loop of an attempt whose call was refused. *)
Lemma run_loop_refused (interactive : bool) (env : attempt) :
  request_accepted (ack env) = false →
  run_loop interactive env
  = Some {| self := timer_start (init interactive TIMEOUT_SECONDS);
            result := []; exceptions := [ScreenshotRequestError];
            exited := true |}.
Proof.
  intros H. unfold run_loop, grab_full_desktop, absorb. rewrite H. simpl.
  now apply loop_exec_exited.
Qed.

(** The loop of an accepted attempt whose first event is the deadline. *)
Lemma run_loop_deadline_first (interactive : bool) (env : attempt) (late : list event) :
  request_accepted (ack env) = true → incoming env = TimerTimeout :: late →
  run_loop interactive env
  = Some {| self := init interactive TIMEOUT_SECONDS;
            result := []; exceptions := [TimeoutError]; exited := true |}.
Proof.
  intros Hack Hin. unfold run_loop, grab_full_desktop, absorb.
  rewrite Hack, Hin. simpl. now apply loop_exec_exited.
Qed.

(** The slot of the response signal stops the timer first, so the
    deadline cannot follow a response. *)
Lemma got_signal_stops_timer (self : portal) (message : signal_message) :
  timer_active (after (got_signal self message)) = false.
Proof.
  unfold got_signal.
  destruct (index (str_split uri_open (text message)) 1) as [uri|e]; [|reflexivity].
  now destruct (index (str_split uri_close uri) 0).
Qed.

Lemma deadline_after_response_silent (self : portal) (message : signal_message) :
  emitted (dispatch (after (got_signal self message)) TimerTimeout) = [].
Proof. simpl. now rewrite got_signal_stops_timer. Qed.

(** A response with code 0 is reported at most once. *)
Lemma got_signal_success_once (self : portal) (message : signal_message) :
  code message = 0%N → length (emitted (got_signal self message)) ≤ 1.
Proof.
  intros Hcode. unfold got_signal. rewrite Hcode. simpl.
  destruct (index (str_split uri_open (text message)) 1) as [uri|e]; simpl; [|lia].
  destruct (index (str_split uri_close uri) 0); simpl; lia.
Qed.

(** A response with another code is reported as an error, and once more
    as a result when its text holds the two markers. *)
Lemma got_signal_error_then_result (self : portal) (message : signal_message)
    (rest uri : string) :
  code message ≠ 0%N →
  index (str_split uri_open (text message)) 1 = Ok rest →
  index (str_split uri_close rest) 0 = Ok uri →
  emitted (got_signal self message)
  = [on_exception (ScreenshotResponseError (code message)); on_result uri].
Proof.
  intros Hcode Hopen Hclose. unfold got_signal. rewrite Hopen, Hclose.
  apply N.eqb_neq in Hcode. now rewrite Hcode.
Qed.

(** C1: whatever [interactive] flag the request object is created with,
    the options of the [Screenshot] call hold [interactive = False]; so
    does the call of the second phase, created with
    [interactive=True]. *)
Theorem screenshot_call_interactive_false (interactive : bool) (env : attempt) :
  options (sent_call interactive env) !! "interactive" = Some (VBool false)
  ∧ options (sent_call true env) !! "interactive" ≠ Some (VBool true).
Proof.
  split; unfold sent_call, screenshot_call; simpl;
    rewrite lookup_insert_eq; congruence.
Qed.

(** C2: a response with code 1 whose text holds a URI makes [got_signal]
    emit twice, [on_exception] with the response error and then
    [on_result] with the URI; [_synchronized_capture] has both recorded
    when its loop returns. *)
Theorem error_response_emits_twice :
  let message := {| code := 1; text := response_text tmp_x_png |} in
  emitted (got_signal (timer_start (init false TIMEOUT_SECONDS)) message)
  = [on_exception (ScreenshotResponseError 1); on_result tmp_x_png]
  ∧ run_loop false (accepted_then [Response message])
    = Some {| self := init false TIMEOUT_SECONDS;
              result := [tmp_x_png];
              exceptions := [ScreenshotResponseError 1];
              exited := true |}.
Proof. split; vm_compute; reflexivity. Qed.

(** C8: when the acknowledgement of the [Screenshot] call is not a
    message whose first argument is an object path, [grab_full_desktop]
    itself emits the request error, and [_synchronized_capture] raises
    it whatever signal or deadline would have followed. *)
Theorem refused_request_fails_at_once (interactive : bool) (env : attempt) :
  request_accepted (ack env) = false →
  emitted (grab_full_desktop (timer_start (init interactive TIMEOUT_SECONDS)) (ack env))
  = [on_exception ScreenshotRequestError]
  ∧ _synchronized_capture load_screens interactive env
    = Raised ScreenshotRequestError.
Proof.
  intros H. split.
  - unfold grab_full_desktop. simpl. now rewrite H.
  - unfold _synchronized_capture. now rewrite (run_loop_refused interactive env H).
Qed.

(** C9: when the loop of [_synchronized_capture] returns with an
    exception recorded, the first recorded exception is raised, whether
    or not a URI was recorded as well. *)
Theorem errors_take_precedence (interactive : bool) (env : attempt)
    (w : loop_state) (error : exn) (others : list exn) :
  run_loop interactive env = Some w →
  exceptions w = error :: others →
  _synchronized_capture load_screens interactive env = Raised error.
Proof.
  intros Hrun Hexc. unfold _synchronized_capture, conclude.
  now rewrite Hrun, Hexc.
Qed.

(** C6, as the code has it: once the deadline of an accepted request has
    come first, [_synchronized_capture] raises [TimeoutError] whatever
    reaches the object later. *)
Theorem late_response_after_timeout (interactive : bool) (env : attempt)
    (late : list event) :
  request_accepted (ack env) = true →
  incoming env = TimerTimeout :: late →
  _synchronized_capture load_screens interactive env = Raised TimeoutError.
Proof.
  intros Hack Hin. unfold _synchronized_capture.
  now rewrite (run_loop_deadline_first interactive env late Hack Hin).
Qed.

(** C3, as the code has it: of the failures of an attempt, [capture]
    turns the timeouts into an empty list (the first one only outside
    the sandbox, where no second attempt follows); every other
    exception of either attempt reaches the caller.  [TimeoutError]
    never does. *)
Theorem capture_failure_outcomes (environ : gmap string string)
    (phase1 : attempt) (polls : list bool) (phase2 : attempt) :
  let first := _synchronized_capture load_screens false phase1 in
  let second := _synchronized_capture load_screens true phase2 in
  let sandboxed := truthy (getenv environ "FLATPAK_ID") in
  let final := (capture load_screens environ phase1 polls phase2).2 in
  (∀ e, first = Raised e → e ≠ TimeoutError → final = Raised e)
  ∧ (first = Raised TimeoutError → sandboxed = false → final = Returned [])
  ∧ (first = Raised TimeoutError → sandboxed = true →
     wait_active polls = true → second = Raised TimeoutError →
     final = Returned [])
  ∧ (∀ e, first = Raised TimeoutError → sandboxed = true →
     wait_active polls = true → second = Raised e → e ≠ TimeoutError →
     final = Raised e)
  ∧ final ≠ Raised TimeoutError.
Proof.
  intros first second sandboxed final.
  subst final. unfold capture. fold first second sandboxed.
  repeat split.
  - intros e -> Hne. now destruct e.
  - intros -> ->. reflexivity.
  - intros -> -> -> ->. reflexivity.
  - intros e -> -> -> -> Hne. now destruct e.
  - destruct first as [imgs|[]|]; simpl; try discriminate.
    destruct sandboxed; simpl; try discriminate.
    destruct (wait_active polls); simpl; try discriminate.
    destruct second as [imgs|[]|]; simpl; discriminate.
Qed.

(** C7: the second phase of [capture] is entered exactly when the first
    attempt ended in [TimeoutError] and [FLATPAK_ID] is set to a
    non-empty value, and it reaches its interactive attempt exactly when,
    in addition, its notice becomes the active window; after a timeout
    without [FLATPAK_ID], [capture] returns the empty list and the
    first attempt is all it did. *)
Theorem retry_iff_timeout_in_sandbox (environ : gmap string string)
    (phase1 : attempt) (polls : list bool) (phase2 : attempt) :
  let first := _synchronized_capture load_screens false phase1 in
  let sandboxed := truthy (getenv environ "FLATPAK_ID") in
  let run := capture load_screens environ phase1 polls phase2 in
  retry_started run.1 = timed_out first && sandboxed
  ∧ retry_requested run.1 = timed_out first && sandboxed && wait_active polls
  ∧ (timed_out first = true → sandboxed = false →
     run = ([SynchronizedCapture false (sent_call false phase1)], Returned [])).
Proof.
  intros first sandboxed run. subst run. unfold capture.
  fold first sandboxed.
  destruct first as [imgs|[]|]; simpl; try (repeat split; congruence).
  destruct sandboxed; simpl; [|repeat split; congruence].
  destruct (wait_active polls); simpl; [|repeat split; congruence].
  destruct (_synchronized_capture load_screens true phase2) as [imgs|[]|];
    simpl; repeat split; congruence.
Qed.

End DbusPortalFacts.

(** ** Instances on sample data *)

Section Samples.
Import DbusPortal.

Lemma refused_request_fails_at_once_witness :
  _synchronized_capture one_screen false refused = Raised ScreenshotRequestError.
Proof.
  apply (refused_request_fails_at_once one_screen false refused). reflexivity.
Defined.

Lemma errors_take_precedence_witness :
  _synchronized_capture one_screen false
    (accepted_then [Response {| code := 1; text := response_text tmp_x_png |}])
  = Raised (ScreenshotResponseError 1).
Proof.
  eapply (errors_take_precedence one_screen false
            (accepted_then [Response {| code := 1; text := response_text tmp_x_png |}])
            {| self := init false TIMEOUT_SECONDS;
               result := [tmp_x_png];
               exceptions := [ScreenshotResponseError 1];
               exited := true |}
            (ScreenshotResponseError 1) []).
  - vm_compute. reflexivity.
  - reflexivity.
Defined.

(** C6, as claimed: the slot of the response signal checks nothing
    before it acts.  Reached by a good response after the deadline has
    fired, it emits the URI; the object has then emitted twice. *)
Lemma late_response_reaches_got_signal :
  client_emissions (timer_start (init false TIMEOUT_SECONDS))
    [TimerTimeout; Response {| code := 0; text := response_text tmp_x_png |}]
  = [on_exception TimeoutError; on_result tmp_x_png]
  ∧ client_emissions (timer_start (init false TIMEOUT_SECONDS))
      [TimerTimeout; Response {| code := 0; text := response_text tmp_x_png |}]
    ≠ client_emissions (timer_start (init false TIMEOUT_SECONDS)) [TimerTimeout].
Proof. split; vm_compute; [reflexivity | discriminate]. Qed.

Lemma late_response_after_timeout_witness :
  _synchronized_capture one_screen false
    (accepted_then
       [TimerTimeout; Response {| code := 0; text := response_text tmp_x_png |}])
  = Raised TimeoutError.
Proof.
  apply (late_response_after_timeout one_screen false
           (accepted_then
              [TimerTimeout; Response {| code := 0; text := response_text tmp_x_png |}])
           [Response {| code := 0; text := response_text tmp_x_png |}]);
    reflexivity.
Defined.

(** C3, as claimed: a refused request, and an error response, end
    [capture] with an exception, not with an empty list. *)
Lemma capture_raises_on_rejection :
  (capture one_screen ∅ refused [] refused).2 = Raised ScreenshotRequestError
  ∧ (capture one_screen ∅
       (accepted_then [Response {| code := 1; text := "cancelled" |}])
       [] refused).2
    = Raised (ScreenshotResponseError 1)
  ∧ (capture one_screen ∅ refused [] refused).2 ≠ Returned [].
Proof. repeat split; vm_compute; (reflexivity || discriminate). Qed.

Lemma capture_failure_outcomes_witness :
  (capture one_screen ∅ refused [] refused).2 = Raised ScreenshotRequestError
  ∧ (capture one_screen ∅ (accepted_then []) [] refused).2 = Returned []
  ∧ (capture one_screen flatpak_environ (accepted_then []) [false; true]
       (accepted_then [])).2 = Returned [].
Proof.
  split; [|split].
  - apply (proj1 (capture_failure_outcomes one_screen ∅ refused [] refused)
             ScreenshotRequestError); [reflexivity | discriminate].
  - apply (proj1 (proj2 (capture_failure_outcomes one_screen ∅
                           (accepted_then []) [] refused))); reflexivity.
  - apply (proj1 (proj2 (proj2 (capture_failure_outcomes one_screen
                                  flatpak_environ (accepted_then [])
                                  [false; true] (accepted_then [])))));
      reflexivity.
Defined.

Lemma retry_iff_timeout_in_sandbox_witness :
  capture one_screen ∅ (accepted_then []) [] (accepted_then [])
  = ([SynchronizedCapture false (sent_call false (accepted_then []))], Returned []).
Proof.
  apply (proj2 (proj2 (retry_iff_timeout_in_sandbox one_screen ∅
                         (accepted_then []) [] (accepted_then []))));
    reflexivity.
Defined.

End Samples.

(** * Further properties *)

(** ** The comparator on numbers *)

Section VersionOrder.
Import UpdateCheck.

Lemma digit_bounds (c : ascii) :
  is_digit c = true → (48 ≤ N_of_ascii c ∧ N_of_ascii c - 48 ≤ 9)%N.
Proof.
  unfold is_digit, nat_of_ascii. intros [H1 H2]%andb_true_iff.
  apply Nat.leb_le in H1, H2. lia.
Qed.

Lemma digit_not_sign (c : ascii) : is_digit c = true → is_sign c = false.
Proof.
  destruct c as [[] [] [] [] [] [] [] []]; vm_compute; congruence.
Qed.

Lemma chr_lt_digits (c c' : ascii) :
  chr_lt c c' = (N_of_ascii c <? N_of_ascii c')%N.
Proof.
  unfold chr_lt, nat_of_ascii.
  destruct (N.ltb_spec (N_of_ascii c) (N_of_ascii c'));
    [apply Nat.ltb_lt | apply Nat.ltb_ge]; lia.
Qed.

Lemma digits_value_acc (s : string) (acc : N) :
  digits_value acc s = (acc * 10 ^ N.of_nat (String.length s) + dval s)%N.
Proof.
  revert acc. induction s as [|c s IH]; intros acc.
  - unfold dval. simpl. lia.
  - unfold dval. cbn [digits_value String.length].
    rewrite (IH (10 * acc + (N_of_ascii c - 48))%N).
    rewrite (IH (10 * 0 + (N_of_ascii c - 48))%N).
    rewrite Nat2N.inj_succ, N.pow_succ_r'. lia.
Qed.

Lemma dval_cons (c : ascii) (s : string) :
  dval (String c s)
  = ((N_of_ascii c - 48) * 10 ^ N.of_nat (String.length s) + dval s)%N.
Proof.
  unfold dval at 1. cbn [digits_value]. rewrite digits_value_acc. lia.
Qed.

Lemma dval_bound (s : string) :
  all_digits s = true → (dval s < 10 ^ N.of_nat (String.length s))%N.
Proof.
  induction s as [|c s IH]; intros H.
  - unfold dval. simpl. lia.
  - cbn [all_digits] in H. apply andb_true_iff in H as [Hc Hs].
    specialize (IH Hs). apply digit_bounds in Hc as [_ Hc].
    rewrite dval_cons. cbn [String.length].
    rewrite Nat2N.inj_succ, N.pow_succ_r'. nia.
Qed.

(** On runs of digits of one length, the order of strings is the order
    of numbers. *)
Lemma digits_order (x y : string) :
  all_digits x = true → all_digits y = true →
  String.length x = String.length y →
  String.eqb x y = (dval x =? dval y)%N ∧ str_lt x y = (dval x <? dval y)%N.
Proof.
  revert y. induction x as [|c x IH]; intros [|c' y] Hx Hy Hlen;
    try discriminate Hlen.
  - split; reflexivity.
  - cbn [all_digits] in Hx, Hy.
    apply andb_true_iff in Hx as [Hc Hx]. apply andb_true_iff in Hy as [Hc' Hy].
    injection Hlen as Hlen.
    destruct (IH y Hx Hy Hlen) as [IHe IHl].
    pose proof (dval_bound x Hx) as Bx. pose proof (dval_bound y Hy) as By.
    rewrite !dval_cons. rewrite <- Hlen in *.
    set (P := (10 ^ N.of_nat (String.length x))%N) in *.
    apply digit_bounds in Hc as [Lc Uc]. apply digit_bounds in Hc' as [Lc' Uc'].
    cbn [String.eqb str_lt]. rewrite chr_lt_digits.
    destruct (Ascii.eqb_spec c c') as [->|Hne].
    + rewrite IHe, IHl. split.
      * destruct (N.eqb_spec (dval x) (dval y)) as [->|Hv].
        -- symmetry. apply N.eqb_refl.
        -- symmetry. apply N.eqb_neq. lia.
      * destruct (N.ltb_spec (dval x) (dval y)).
        -- symmetry. apply N.ltb_lt. lia.
        -- symmetry. apply N.ltb_ge. lia.
    + assert (N_of_ascii c ≠ N_of_ascii c') as Hn.
      { intros E. apply Hne.
        rewrite <- (ascii_N_embedding c), <- (ascii_N_embedding c'). now rewrite E. }
      split.
      * symmetry. apply N.eqb_neq. nia.
      * destruct (N.ltb_spec (N_of_ascii c) (N_of_ascii c')).
        -- symmetry. apply N.ltb_lt. nia.
        -- symmetry. apply N.ltb_ge. nia.
Qed.

Lemma append_length (s t : string) :
  String.length (s +:+ t) = String.length s + String.length t.
Proof.
  induction s as [|c s IH]; [reflexivity|].
  rewrite append_cons. cbn [String.length]. now rewrite IH.
Qed.

Lemma zeros_length (k : nat) : String.length (zeros k) = k.
Proof. induction k as [|k IH]; simpl; congruence. Qed.

Lemma zeros_append_digits (k : nat) (s : string) :
  all_digits s = true → all_digits (zeros k +:+ s) = true.
Proof.
  intros H. induction k as [|k IH]; [exact H|].
  cbn [zeros]. rewrite append_cons. cbn [all_digits]. now rewrite IH.
Qed.

Lemma zeros_append_dval (k : nat) (s : string) : dval (zeros k +:+ s) = dval s.
Proof.
  induction k as [|k IH]; [reflexivity|].
  cbn [zeros]. rewrite append_cons, dval_cons, IH. reflexivity.
Qed.

(** Padding a number of at most eight digits: eight digits, the same
    number. *)
Lemma zfill_short_number (s : string) :
  is_short_number s = true →
  all_digits (zfill 8 s) = true ∧ String.length (zfill 8 s) = 8
  ∧ dval (zfill 8 s) = dval s.
Proof.
  unfold is_short_number. intros [Hnum Hlen]%andb_true_iff.
  apply Nat.leb_le in Hlen.
  destruct s as [|c s]; [discriminate|]. cbn [is_number] in Hnum.
  assert (zfill 8 (String c s)
          = zeros (8 - String.length (String c s)) +:+ String c s) as ->.
  { unfold zfill. destruct (Nat.leb_spec 8 (String.length (String c s))) as [H8|H8].
    - replace (8 - String.length (String c s)) with 0 by lia. reflexivity.
    - cbn [all_digits] in Hnum. apply andb_true_iff in Hnum as [Hc _].
      now rewrite (digit_not_sign c Hc). }
  split; [|split].
  - now apply zeros_append_digits.
  - rewrite append_length, zeros_length. lia.
  - apply zeros_append_dval.
Qed.

(** Two padded numbers compare as strings the way they compare as
    numbers. *)
Lemma zfill_order (a b : string) :
  is_short_number a = true → is_short_number b = true →
  String.eqb (zfill 8 a) (zfill 8 b) = (dval a =? dval b)%N
  ∧ str_lt (zfill 8 a) (zfill 8 b) = (dval a <? dval b)%N.
Proof.
  intros Ha Hb.
  destruct (zfill_short_number a Ha) as (Da & La & Va).
  destruct (zfill_short_number b Hb) as (Db & Lb & Vb).
  rewrite <- Va, <- Vb. apply digits_order; congruence.
Qed.

Lemma short_number_is_number (s : string) :
  is_short_number s = true → is_number s = true.
Proof. unfold is_short_number. now intros [H _]%andb_true_iff. Qed.

(** The order of the padded triples is the order of the triples of
    numbers. *)
Lemma padded_triples_order (a1 a2 a3 b1 b2 b3 : string) :
  is_short_number a1 = true → is_short_number a2 = true →
  is_short_number a3 = true → is_short_number b1 = true →
  is_short_number b2 = true → is_short_number b3 = true →
  tuple_lt [zfill 8 a1; zfill 8 a2; zfill 8 a3] [zfill 8 b1; zfill 8 b2; zfill 8 b3]
  = match triple_compare (dval a1, dval a2, dval a3) (dval b1, dval b2, dval b3) with
    | Lt => true
    | _ => false
    end.
Proof.
  intros A1 A2 A3 B1 B2 B3.
  destruct (zfill_order a1 b1 A1 B1) as [E1 L1].
  destruct (zfill_order a2 b2 A2 B2) as [E2 L2].
  destruct (zfill_order a3 b3 A3 B3) as [E3 L3].
  cbn [tuple_lt triple_compare]. rewrite E1, E2, E3, L1, L2, L3.
  rewrite !N.eqb_compare, !N.ltb_compare.
  destruct (dval a1 ?= dval b1)%N; try reflexivity.
  destruct (dval a2 ?= dval b2)%N; try reflexivity.
  destruct (dval a3 ?= dval b3)%N; reflexivity.
Qed.

Lemma triple_compare_antisym (a b : N * N * N) :
  triple_compare b a = CompOpp (triple_compare a b).
Proof.
  destruct a as [[a1 a2] a3], b as [[b1 b2] b3]. cbn [triple_compare].
  rewrite (N.compare_antisym a1 b1), (N.compare_antisym a2 b2),
    (N.compare_antisym a3 b3).
  destruct (a1 ?= b1)%N; try reflexivity.
  destruct (a2 ?= b2)%N; reflexivity.
Qed.

Lemma padded_triples_equal (a1 a2 a3 b1 b2 b3 : string) :
  is_short_number a1 = true → is_short_number a2 = true →
  is_short_number a3 = true → is_short_number b1 = true →
  is_short_number b2 = true → is_short_number b3 = true →
  triple_compare (dval a1, dval a2, dval a3) (dval b1, dval b2, dval b3) = Eq →
  zfill 8 a1 = zfill 8 b1 ∧ zfill 8 a2 = zfill 8 b2 ∧ zfill 8 a3 = zfill 8 b3.
Proof.
  intros A1 A2 A3 B1 B2 B3. cbn [triple_compare].
  destruct (zfill_order a1 b1 A1 B1) as [E1 _].
  destruct (zfill_order a2 b2 A2 B2) as [E2 _].
  destruct (zfill_order a3 b3 A3 B3) as [E3 _].
  rewrite N.eqb_compare in E1, E2, E3.
  destruct (dval a1 ?= dval b1)%N; try discriminate.
  destruct (dval a2 ?= dval b2)%N; try discriminate.
  destruct (dval a3 ?= dval b3)%N; try discriminate.
  intros _. repeat split; now apply String.eqb_eq.
Qed.

(** X1: on versions of the documented form whose three numbers have at
    most eight digits each, the comparator decides by the numbers: the
    other version is newer when its triple (major, minor, patch) is the
    greater one, it is not when its triple is the smaller one, and with
    equal triples it is newer exactly when it has no suffix and the
    current one has one.  Leading zeros do not matter. *)
Theorem is_new_version_by_numbers (major minor patch major' minor' patch' : string)
    (cur oth : prerelease) :
  is_short_number major = true → is_short_number minor = true →
  is_short_number patch = true → is_short_number major' = true →
  is_short_number minor' = true → is_short_number patch' = true →
  prerelease_ok cur = true → prerelease_ok oth = true →
  _is_new_version (version_text major minor patch cur)
                  (version_text major' minor' patch' oth)
  = Ok match triple_compare (dval major, dval minor, dval patch)
                            (dval major', dval minor', dval patch') with
       | Lt => true
       | Gt => false
       | Eq => is_release oth && negb (is_release cur)
       end.
Proof.
  intros A1 A2 A3 B1 B2 B3 Hc Ho. unfold _is_new_version.
  rewrite !re_split_version by (assumption || now apply short_number_is_number).
  cbn [map take firstn]. rewrite !take_0. unfold tuple_gt.
  rewrite (padded_triples_order major minor patch major' minor' patch') by assumption.
  rewrite (padded_triples_order major' minor' patch' major minor patch) by assumption.
  rewrite (triple_compare_antisym (dval major, dval minor, dval patch)).
  pose proof (padded_triples_equal major minor patch major' minor' patch'
                A1 A2 A3 B1 B2 B3) as Heq.
  destruct (triple_compare (dval major, dval minor, dval patch)
                           (dval major', dval minor', dval patch'));
    cbn [CompOpp]; try reflexivity.
  destruct (Heq eq_refl) as (-> & -> & ->).
  generalize (zfill 8 major') (zfill 8 minor') (zfill 8 patch').
  intros zM zm zp.
  destruct cur as [|a|a], oth as [|b|b]; cbn [prerelease_pieces map];
    generalize (zfill 8 a) || idtac; generalize (zfill 8 b) || idtac;
    intros; reflexivity.
Qed.

Lemma is_new_version_by_numbers_witness :
  _is_new_version "0.9.7-beta.1" "0.10.0" = Ok true
  ∧ _is_new_version "0.10.0" "0.9.12" = Ok false
  ∧ _is_new_version "1.02.3" "1.2.3" = Ok false.
Proof.
  split; [|split].
  - exact (is_new_version_by_numbers "0" "9" "7" "0" "10" "0" (Beta "1") Release
             eq_refl eq_refl eq_refl eq_refl eq_refl eq_refl eq_refl eq_refl).
  - exact (is_new_version_by_numbers "0" "10" "0" "0" "9" "12" Release Release
             eq_refl eq_refl eq_refl eq_refl eq_refl eq_refl eq_refl eq_refl).
  - exact (is_new_version_by_numbers "1" "02" "3" "1" "2" "3" Release Release
             eq_refl eq_refl eq_refl eq_refl eq_refl eq_refl eq_refl eq_refl).
Defined.

End VersionOrder.

(** ** Parsing the download *)

Section ParseVersion.
Import UpdateCheck.

Lemma span_digits_spec (s digits after : string) :
  span_digits s = (digits, after) →
  all_digits digits = true ∧ s = digits +:+ after.
Proof.
  revert digits after. induction s as [|c s IH]; intros digits after H.
  - injection H as <- <-. now split.
  - cbn [span_digits] in H. destruct (is_digit c) eqn:Hc.
    + destruct (span_digits s) as [d a]. injection H as <- <-.
      destruct (IH d a eq_refl) as [Hd ->]. split.
      * cbn [all_digits]. now rewrite Hc, Hd.
      * now rewrite append_cons.
    + injection H as <- <-. now split.
Qed.

Lemma digits1_spec (s digits after : string) :
  digits1 s = Some (digits, after) →
  is_number digits = true ∧ s = digits +:+ after.
Proof.
  unfold digits1. destruct (span_digits s) as [d a] eqn:E.
  destruct d as [|c d]; [discriminate|]. intros [= <- <-].
  destruct (span_digits_spec s _ _ E) as [Hd ->]. now split.
Qed.

(** What the group of the two patterns holds: three numbers with dots
    between them. *)
Lemma version_group_form (s group : string) :
  version_group s = Some group →
  ∃ major minor patch,
    is_number major = true ∧ is_number minor = true ∧ is_number patch = true
    ∧ group = major +:+ "." +:+ minor +:+ "." +:+ patch.
Proof.
  unfold version_group. intros H.
  apply bind_Some in H as ([a s1] & E1 & H).
  apply bind_Some in H as (s2 & _ & H).
  apply bind_Some in H as ([b s3] & E2 & H).
  apply bind_Some in H as (s4 & _ & H).
  apply bind_Some in H as ([c s5] & E3 & H).
  apply bind_Some in H as (s6 & _ & H).
  injection H as <-.
  exists a, b, c.
  destruct (digits1_spec _ _ _ E1) as [Ha _].
  destruct (digits1_spec _ _ _ E2) as [Hb _].
  destruct (digits1_spec _ _ _ E3) as [Hc _].
  now repeat split.
Qed.

Lemma re_search_found (at_head : string → option string) (s group : string) :
  re_search at_head s = Some group → ∃ t, at_head t = Some group.
Proof.
  induction s as [|c s IH]; cbn [re_search]; intros H.
  - destruct (at_head EmptyString) eqn:E; [|discriminate].
    injection H as <-. now exists EmptyString.
  - destruct (at_head (String c s)) eqn:E.
    + injection H as <-. now exists (String c s).
    + now apply IH.
Qed.

Lemma searched_version_form (is_packaged : bool) (text group : string) :
  re_search (if is_packaged then match_atom else match_json) text = Some group →
  ∃ major minor patch,
    is_number major = true ∧ is_number minor = true ∧ is_number patch = true
    ∧ group = major +:+ "." +:+ minor +:+ "." +:+ patch.
Proof.
  intros H. apply re_search_found in H as [t H].
  destruct is_packaged.
  - unfold match_atom in H.
    apply bind_Some in H as (t1 & _ & H).
    now apply (version_group_form t1).
  - unfold match_json in H.
    apply bind_Some in H as (t1 & _ & H).
    apply bind_Some in H as (t2 & _ & H).
    now apply (version_group_form t2).
Qed.

Lemma re_split_three (major minor patch : string) :
  is_number major = true → is_number minor = true → is_number patch = true →
  re_split (major +:+ "." +:+ minor +:+ "." +:+ patch) = [major; minor; patch].
Proof.
  intros HM Hm Hp.
  change ("." +:+ minor +:+ "." +:+ patch)
    with (String "." (minor +:+ String "." patch)).
  rewrite (re_split_piece major "." _ (is_number_no_sep _ HM) eq_refl).
  rewrite (re_split_piece minor "." _ (is_number_no_sep _ Hm) eq_refl).
  now rewrite (re_split_no_sep patch (is_number_no_sep _ Hp)).
Qed.

(** Against a version of three numbers, the comparator returns,
    whatever the current version is: it never gets as far as the
    suffixes when only one side can have one. *)
Lemma is_new_version_returns (current major minor patch : string) :
  is_number major = true → is_number minor = true → is_number patch = true →
  ∃ newer, _is_new_version current (major +:+ "." +:+ minor +:+ "." +:+ patch)
           = Ok newer.
Proof.
  intros HM Hm Hp. unfold _is_new_version.
  rewrite (re_split_three major minor patch HM Hm Hp).
  cbn [map length].
  destruct (tuple_gt _ _); [now eexists|].
  destruct (tuple_lt _ _); [now eexists|].
  change (3 =? 3)%nat with true. cbn [andb].
  destruct (Nat.eqb_spec (length (map (zfill 8) (re_split current))) 3) as [He|Hne].
  - now eexists.
  - destruct (Nat.eqb_spec 3 (length (map (zfill 8) (re_split current))));
      [congruence|]. now eexists.
Qed.

(** X2: [_parse_version] lets no exception escape, whatever the
    download and whatever the installed version string: the version it
    finds always has exactly three numeric components, and against
    such a version the comparison returns. *)
Theorem parse_version_never_raises (self : checker) (text : string) (choice : N) :
  (_parse_version self text choice).2 = None.
Proof.
  unfold _parse_version.
  destruct (re_search _ text) as [[|c rest]|] eqn:E; try reflexivity.
  destruct (searched_version_form _ _ _ E) as (a & b & d & Ha & Hb & Hd & ->).
  destruct (is_new_version_returns (version self) a b d Ha Hb Hd) as [newer ->].
  now destruct newer.
Qed.

(** X3: called directly with a version of fewer than three components
    on both sides, the comparator raises [IndexError]: the tuples are
    equal, not of length three, and have no fourth item. *)
Theorem short_version_raises (v : string) :
  length (re_split v) < 3 → _is_new_version v v = Raise IndexError.
Proof.
  intros Hlen. unfold _is_new_version, tuple_gt.
  rewrite !tuple_lt_irrefl. rewrite length_map.
  destruct (Nat.eqb_spec (length (re_split v)) 3); [lia|].
  rewrite Nat.eqb_refl. cbn [andb negb]. unfold index.
  rewrite (lookup_ge_None_2 (map (zfill 8) (re_split v)) 3)
    by (rewrite length_map; lia).
  reflexivity.
Qed.

Lemma short_version_raises_witness : _is_new_version "0.3" "0.3" = Raise IndexError.
Proof. apply (short_version_raises "0.3"). vm_compute. lia. Defined.

Lemma append_assoc (a b c : string) : (a +:+ b) +:+ c = a +:+ b +:+ c.
Proof.
  induction a as [|x a IH]; [reflexivity|].
  now rewrite !append_cons, IH.
Qed.

Lemma literal_here (lit s : string) : literal lit (lit +:+ s) = Some s.
Proof.
  induction lit as [|c lit IH]; [now destruct s|].
  rewrite append_cons. cbn [literal]. now rewrite Ascii.eqb_refl.
Qed.

Lemma span_digits_run (digits : string) (c : ascii) (after : string) :
  all_digits digits = true → is_digit c = false →
  span_digits (digits +:+ String c after) = (digits, String c after).
Proof.
  intros Hd Hc. induction digits as [|x digits IH].
  - change (EmptyString +:+ String c after) with (String c after).
    cbn [span_digits]. now rewrite Hc.
  - cbn [all_digits] in Hd. apply andb_true_iff in Hd as [Hx Hd].
    rewrite append_cons. cbn [span_digits]. now rewrite Hx, (IH Hd).
Qed.

Lemma digits1_run (digits : string) (c : ascii) (after : string) :
  is_number digits = true → is_digit c = false →
  digits1 (digits +:+ String c after) = Some (digits, String c after).
Proof.
  intros Hd Hc. unfold digits1.
  destruct digits as [|x digits]; [discriminate|].
  now rewrite (span_digits_run (String x digits) c after Hd Hc).
Qed.

Lemma version_group_here (major minor patch after : string) :
  is_number major = true → is_number minor = true → is_number patch = true →
  version_group (major +:+ "." +:+ minor +:+ "." +:+ patch
                   +:+ String quote_char after)
  = Some (major +:+ "." +:+ minor +:+ "." +:+ patch).
Proof.
  intros HM Hm Hp. unfold version_group.
  change ("." +:+ minor +:+ "." +:+ patch +:+ String quote_char after)
    with (String "." (minor +:+ String "." (patch +:+ String quote_char after))).
  rewrite (digits1_run major "." _ HM eq_refl). cbn [mbind option_bind].
  change (literal "." (String "." ?t)) with (Some t). cbn [mbind option_bind].
  rewrite (digits1_run minor "." _ Hm eq_refl). cbn [mbind option_bind].
  change (literal "." (String "." ?t)) with (Some t). cbn [mbind option_bind].
  rewrite (digits1_run patch quote_char after Hp eq_refl). cbn [mbind option_bind].
  reflexivity.
Qed.

(** The search passes over a stretch without the first character of
    the pattern. *)
Lemma re_search_skip (at_head : string → option string) (first : ascii)
    (before rest : string) :
  (∀ c t, c ≠ first → at_head (String c t) = None) →
  lacks first before = true →
  re_search at_head (before +:+ rest) = re_search at_head rest.
Proof.
  intros Hhead. induction before as [|c before IH]; intros Hb.
  - reflexivity.
  - cbn [lacks] in Hb. apply andb_true_iff in Hb as [Hc Hb].
    apply negb_true_iff in Hc. apply Ascii.eqb_neq in Hc.
    rewrite append_cons. cbn [re_search]. rewrite (Hhead c _ Hc). now apply IH.
Qed.

Lemma re_search_here (at_head : string → option string) (s group : string) :
  at_head s = Some group → re_search at_head s = Some group.
Proof. intros H. destruct s; cbn [re_search]; now rewrite H. Qed.

Lemma match_atom_first (c : ascii) (t : string) :
  c ≠ "/"%char → match_atom (String c t) = None.
Proof.
  intros Hc. unfold match_atom. cbn [literal].
  apply not_eq_sym, Ascii.eqb_neq in Hc. now rewrite Hc.
Qed.

Lemma match_json_first (c : ascii) (t : string) :
  c ≠ quote_char → match_json (String c t) = None.
Proof.
  intros Hc. unfold match_json. cbn [literal].
  apply not_eq_sym, Ascii.eqb_neq in Hc. now rewrite Hc.
Qed.

Lemma skip_spaces_run (spaces : string) (c : ascii) (after : string) :
  forallb is_space (list_ascii_of_string spaces) = true → is_space c = false →
  skip_spaces (spaces +:+ String c after) = String c after.
Proof.
  intros Hs Hc. induction spaces as [|x spaces IH].
  - change (EmptyString +:+ String c after) with (String c after).
    cbn [skip_spaces]. now rewrite Hc.
  - cbn [list_ascii_of_string forallb] in Hs.
    apply andb_true_iff in Hs as [Hx Hs].
    rewrite append_cons. cbn [skip_spaces]. now rewrite Hx, (IH Hs).
Qed.

(** X4: the search gives back the version of the first release tag of
    an atom feed, and of the first ["version"] entry of a JSON index
    (white space after the colon allowed), when nothing before it holds
    the character the pattern starts with; what comes after the closing
    quote does not matter. *)
Theorem search_finds_first_version (before spaces major minor patch after : string) :
  is_number major = true → is_number minor = true → is_number patch = true →
  let found := major +:+ "." +:+ minor +:+ "." +:+ patch in
  (lacks "/" before = true →
   re_search match_atom
     (before +:+ "/releases/tag/v" +:+ found +:+ String quote_char after)
   = Some found)
  ∧ (lacks quote_char before = true →
     forallb is_space (list_ascii_of_string spaces) = true →
     re_search match_json
       (before +:+ String quote_char ("version" +:+ String quote_char ":")
          +:+ spaces +:+ String quote_char (found +:+ String quote_char after))
     = Some found).
Proof.
  intros HM Hm Hp found. subst found. split.
  - intros Hb.
    rewrite (re_search_skip match_atom "/" before _ match_atom_first Hb).
    apply re_search_here. unfold match_atom.
    rewrite literal_here. cbn [mbind option_bind].
    rewrite !append_assoc. now apply version_group_here.
  - intros Hb Hs.
    rewrite (re_search_skip match_json quote_char before _ match_json_first Hb).
    apply re_search_here. unfold match_json.
    rewrite literal_here. cbn [mbind option_bind].
    rewrite (skip_spaces_run spaces quote_char _ Hs eq_refl).
    change (literal (String quote_char EmptyString) (String quote_char ?t))
      with (Some t).
    cbn [mbind option_bind].
    rewrite !append_assoc. now apply version_group_here.
Qed.

Lemma search_finds_first_version_witness :
  re_search match_atom
    ("<entry> " +:+ "/releases/tag/v" +:+ "0.4.1"
       +:+ String quote_char "/> /releases/tag/v0.4.0")
  = Some "0.4.1"
  ∧ re_search match_json
      ("{ " +:+ String quote_char ("version" +:+ String quote_char ":")
         +:+ "  " +:+ String quote_char ("0.4.12" +:+ String quote_char "}"))
    = Some "0.4.12".
Proof.
  split.
  - apply (proj1 (search_finds_first_version "<entry> " EmptyString "0" "4" "1"
                    "/> /releases/tag/v0.4.0" eq_refl eq_refl eq_refl)).
    reflexivity.
  - apply (proj2 (search_finds_first_version "{ " "  " "0" "4" "12" "}"
                    eq_refl eq_refl eq_refl)); reflexivity.
Defined.

Lemma show_update_message_click (self : checker) (new_version url : string)
    (choice : N) :
  on_click_get_new_version url ∈ _show_update_message self new_version choice
  ↔ choice = 1024%N
    ∧ url = (if packaged self then releases (URLS self) else changelog (URLS self)).
Proof.
  unfold _show_update_message.
  destruct (packaged self); destruct (N.eqb_spec choice 1024) as [->|Hne];
    cbn [app]; rewrite !elem_of_cons, elem_of_nil; split.
  all: try (intros [H|[H|[H|[H|[]]]]]; try discriminate H;
            injection H as ->; now split).
  all: try (intros [_ ->]; now (right; right; right; left)).
  all: try (intros [H|[H|[H|[]]]]; discriminate H).
  all: intros [H _]; contradiction.
Qed.

(** X5: the signal that opens the download page is emitted exactly when
    the download held a version, the comparator reported it as newer
    than the installed one, and the dialog returned 1024 (its Ok
    button); its URL is the release page for a packaged build and the
    changelog otherwise. *)
Theorem click_iff_newer_and_ok (self : checker) (text url : string) (choice : N) :
  on_click_get_new_version url ∈ (_parse_version self text choice).1
  ↔ choice = 1024%N
    ∧ url = (if packaged self then releases (URLS self) else changelog (URLS self))
    ∧ ∃ newest,
        re_search (if packaged self then match_atom else match_json) text
        = Some newest
        ∧ _is_new_version (version self) newest = Ok true.
Proof.
  unfold _parse_version.
  destruct (re_search _ text) as [[|c rest]|] eqn:E; cbn [fst].
  - destruct (searched_version_form _ _ _ E) as (a & b & d & Ha & _ & _ & Hform).
    destruct a; discriminate.
  - destruct (_is_new_version (version self) (String c rest)) as [[]|e] eqn:N;
      cbn [fst].
    + rewrite elem_of_cons, show_update_message_click. split.
      * intros [H|(-> & ->)]; [discriminate|]. eauto.
      * intros (-> & -> & _). now right.
    + rewrite elem_of_cons, elem_of_nil. split.
      * intros [H|[]]. discriminate.
      * intros (_ & _ & newest & [= <-] & H). congruence.
    + rewrite elem_of_cons, elem_of_nil. split.
      * intros [H|[]]. discriminate.
      * intros (_ & _ & newest & [= <-] & H). congruence.
  - rewrite elem_of_cons, elem_of_nil. split.
    + intros [H|[]]. discriminate.
    + intros (_ & _ & newest & [=] & _).
Qed.

Lemma click_iff_newer_and_ok_witness :
  on_click_get_new_version "https://github.com/dynobo/normcap/releases"
    ∈ (_parse_version sample_checker sample_feed 1024).1.
Proof.
  apply (click_iff_newer_and_ok sample_checker sample_feed
           "https://github.com/dynobo/normcap/releases" 1024).
  split; [reflexivity|]. split; [reflexivity|].
  exists "0.4.1". split; vm_compute; reflexivity.
Defined.

End ParseVersion.

(** ** Cutting the URI out of a response *)

Section ScrapeUri.
Import DbusPortal.

Lemma prefix_cons (a b : ascii) (s t : string) :
  String.prefix (String a s) (String b t)
  = if Ascii.eqb a b then String.prefix s t else false.
Proof.
  with_strategy transparent [String.prefix] (cbn [String.prefix]).
  destruct (Ascii.ascii_dec a b) as [->|Hne].
  - now rewrite Ascii.eqb_refl.
  - apply Ascii.eqb_neq in Hne. now rewrite Hne.
Qed.



Lemma str_split_from_nonempty (sep : string) (skip : nat) (s : string) :
  str_split_from sep skip s ≠ [].
Proof.
  revert skip. induction s as [|c s IH]; intros skip; [discriminate|].
  cbn [str_split_from]. destruct skip as [|k]; [|apply IH].
  destruct (String.prefix sep (String c s)); [discriminate|].
  specialize (IH 0). now destruct (str_split_from sep 0 s).
Qed.



(** A stretch without the first character of the separator stays in
    the piece. *)
Lemma str_split_lacking (c : ascii) (sep before rest : string) :
  lacks c before = true →
  str_split (String c sep) (before +:+ rest)
  = prepend before (str_split (String c sep) rest).
Proof.
  intros Hb. unfold str_split. induction before as [|x before IH].
  - change (EmptyString +:+ rest) with rest.
    pose proof (str_split_from_nonempty (String c sep) 0 rest).
    now destruct (str_split_from (String c sep) 0 rest).
  - cbn [lacks] in Hb. apply andb_true_iff in Hb as [Hx Hb].
    apply negb_true_iff in Hx. rewrite append_cons. cbn [str_split_from].
    rewrite prefix_cons, (Ascii.eqb_sym c x), Hx, (IH Hb).
    pose proof (str_split_from_nonempty (String c sep) 0 rest).
    destruct (str_split_from (String c sep) 0 rest); [contradiction|].
    cbn [prepend cons_head]. now rewrite append_cons.
Qed.



Lemma str_split_absent (c : ascii) (sep s : string) :
  lacks c s = true → str_split (String c sep) s = [s].
Proof.
  intros H. rewrite <- (append_empty s) at 1.
  rewrite (str_split_lacking c sep s EmptyString H).
  cbn [str_split str_split_from prepend]. now rewrite append_empty.
Qed.


Lemma got_signal_unreported (self : portal) (message : signal_message) :
  unreported (Response message) = true →
  got_signal self message
  = {| after := timer_stop self; emitted := []; raised := Some IndexError |}.
Proof.
  cbn [unreported]. intros [Hcode Htext]%andb_true_iff.
  unfold got_signal. rewrite Hcode. cbn [negb].
  change uri_open with (String "[" (String.substring 1 19 uri_open)).
  now rewrite (str_split_absent "[" _ (text message) Htext).
Qed.

Section Wrapper.
Context {QImage : Type} (load_screens : string → list QImage).




Lemma loop_exec_unreported (w : loop_state) (pending : list event) :
  exited w = false → timer_active (self w) = false →
  forallb unreported pending = true →
  loop_exec w pending = None.
Proof.
  revert w. induction pending as [|ev pending IH]; intros w Hex Htimer Hall.
  - cbn [loop_exec]. now rewrite Hex, Htimer.
  - cbn [forallb] in Hall. apply andb_true_iff in Hall as [Hev Hall].
    cbn [loop_exec]. rewrite Hex. apply IH; try assumption.
    + destruct ev as [|message]; cbn [dispatch].
      * now rewrite Htimer.
      * now rewrite (got_signal_unreported _ message Hev).
    + destruct ev as [|message]; cbn [dispatch].
      * now rewrite Htimer.
      * now rewrite (got_signal_unreported _ message Hev).
Qed.

(** X8: a response with code 0 whose text has no opening bracket stops
    the timer and gets nothing reported: [got_signal] ends in
    [IndexError] before it emits.  When such a response is the first
    event of an accepted attempt and only such responses and deadlines
    follow, the loop of [_synchronized_capture] is never left. *)
Theorem unreported_response_blocks (interactive : bool) (env : attempt)
    (message : signal_message) (later : list event) :
  request_accepted (ack env) = true →
  incoming env = Response message :: later →
  unreported (Response message) = true →
  forallb unreported later = true →
  got_signal (timer_start (init interactive TIMEOUT_SECONDS)) message
  = {| after := init interactive TIMEOUT_SECONDS; emitted := [];
       raised := Some IndexError |}
  ∧ _synchronized_capture load_screens interactive env = Blocked.
Proof.
  intros Hack Hin Hm Hlater. split.
  - now rewrite (got_signal_unreported _ message Hm).
  - unfold _synchronized_capture, run_loop, grab_full_desktop, absorb.
    rewrite Hack, Hin. cbn [emitted after fold_left loop_exec exited self dispatch].
    rewrite (got_signal_unreported _ message Hm).
    cbn [emitted after fold_left result exceptions exited].
    now rewrite loop_exec_unreported.
Qed.

End Wrapper.

End ScrapeUri.

(** ** What the loop keeps *)

Section LoopInvariants.
Import DbusPortal.
Context {QImage : Type} (load_screens : string → list QImage).

(** A property every handled event keeps holds when the loop returns. *)
Lemma loop_exec_invariant (P : loop_state → Prop) :
  (∀ w ev, P w → P (absorb w (dispatch (self w) ev))) →
  ∀ pending w w', P w → loop_exec w pending = Some w' → P w'.
Proof.
  intros Hstep. induction pending as [|ev pending IH]; intros w w' HP Hrun.
  - cbn [loop_exec] in Hrun. destruct (exited w); [now injection Hrun as <-|].
    destruct (timer_active (self w)); [|discriminate].
    injection Hrun as <-. exact (Hstep w TimerTimeout HP).
  - cbn [loop_exec] in Hrun. destruct (exited w); [now injection Hrun as <-|].
    apply (IH _ _ (Hstep w ev HP) Hrun).
Qed.









Lemma got_signal_no_timeout (p : portal) (message : signal_message) :
  forallb not_timeout (emitted (got_signal p message)) = true.
Proof.
  unfold got_signal.
  destruct (index (str_split uri_open (text message)) 1) as [piece|e];
    [destruct (index (str_split uri_close piece) 0)|];
    now destruct (negb (code message =? 0)%N).
Qed.

Lemma fold_deliver_deadline_off (es : list emission) (w : loop_state) :
  forallb not_timeout es = true →
  deadline_off w → deadline_off (fold_left deliver es w).
Proof.
  revert w. induction es as [|e es IH]; intros w Hes Hw; [exact Hw|].
  cbn [forallb] in Hes. apply andb_true_iff in Hes as [He Hes].
  cbn [fold_left]. apply IH; [exact Hes|].
  destruct Hw as [Ht Hx]. destruct e as [uri|error]; split; cbn; try assumption.
  change (negb (is_timeout_error error) = true) in He.
  rewrite forallb_app, Hx. cbn. now rewrite He.
Qed.

Lemma absorb_response_deadline_off (w : loop_state) (message : signal_message) :
  forallb (λ e, negb (is_timeout_error e)) (exceptions w) = true →
  deadline_off (absorb w (got_signal (self w) message)).
Proof.
  intros Hx. unfold absorb.
  apply fold_deliver_deadline_off; [apply got_signal_no_timeout|].
  split; cbn; [apply got_signal_stops_timer|exact Hx].
Qed.

Lemma absorb_deadline_off (w : loop_state) (ev : event) :
  deadline_off w → deadline_off (absorb w (dispatch (self w) ev)).
Proof.
  intros [Ht Hx]. destruct ev as [|message]; cbn [dispatch].
  - rewrite Ht. unfold absorb. cbn. now split.
  - now apply absorb_response_deadline_off.
Qed.

(** X10: a response cancels the deadline for good.  When the first
    event of an attempt is a response, whatever its code and text and
    whatever follows, [_synchronized_capture] does not raise
    [TimeoutError]. *)
Theorem response_cancels_deadline (interactive : bool) (token : string)
    (reply : py_value) (message : signal_message) (later : list event) :
  _synchronized_capture load_screens interactive
    {| random_str := token; ack := reply; incoming := Response message :: later |}
  ≠ Raised TimeoutError.
Proof.
  unfold _synchronized_capture.
  destruct (run_loop _ _) as [w|] eqn:Hrun; [|discriminate].
  assert (forallb (λ e, negb (is_timeout_error e)) (exceptions w) = true) as Hx.
  { unfold run_loop in Hrun. cbn [ack incoming] in Hrun.
    set (p0 := timer_start (init interactive TIMEOUT_SECONDS)) in Hrun.
    set (w0 := {| self := p0; result := []; exceptions := []; exited := false |})
      in Hrun.
    destruct (request_accepted reply) eqn:Hack.
    - assert (absorb w0 (grab_full_desktop p0 reply) = w0) as Hw0.
      { unfold grab_full_desktop, absorb. now rewrite Hack. }
      rewrite Hw0 in Hrun. cbn [loop_exec w0 exited self dispatch] in Hrun.
      refine (proj2 (loop_exec_invariant deadline_off absorb_deadline_off
                       later _ w _ Hrun)).
      now apply (absorb_response_deadline_off w0 message).
    - rewrite loop_exec_exited in Hrun.
      + injection Hrun as <-. unfold grab_full_desktop, absorb.
        now rewrite Hack.
      + unfold grab_full_desktop, absorb. now rewrite Hack. }
  unfold conclude. destruct (exceptions w) as [|error others].
  - now destruct (result w).
  - cbn [forallb] in Hx. apply andb_true_iff in Hx as [Hx _].
    intros [= ->]. discriminate Hx.
Qed.

Lemma fold_deliver_exceptions (es : list emission) (w : loop_state) :
  ∃ more, exceptions (fold_left deliver es w) = exceptions w ++ more.
Proof.
  revert w. induction es as [|e es IH]; intros w.
  - exists []. now rewrite app_nil_r.
  - cbn [fold_left]. destruct (IH (deliver w e)) as [more ->].
    destruct e as [uri|error]; cbn [deliver exceptions].
    + now exists more.
    + exists (error :: more). now rewrite <- app_assoc.
Qed.

Lemma fold_deliver_exited (es : list emission) (w : loop_state) :
  exited w = true → exited (fold_left deliver es w) = true.
Proof.
  revert w. induction es as [|e es IH]; intros w Hw; [exact Hw|].
  cbn [fold_left]. apply IH, deliver_exits.
Qed.

Lemma got_signal_error_first (p : portal) (message : signal_message) :
  code message ≠ 0%N →
  ∃ more,
    emitted (got_signal p message)
    = on_exception (ScreenshotResponseError (code message)) :: more.
Proof.
  intros Hcode%N.eqb_neq. unfold got_signal. rewrite Hcode. cbn [negb].
  destruct (index (str_split uri_open (text message)) 1) as [piece|e];
    [destruct (index (str_split uri_close piece) 0)|]; cbn; eauto.
Qed.

Lemma sync_capture_error_response (interactive : bool) (env : attempt)
    (message : signal_message) (later : list event) :
  request_accepted (ack env) = true →
  incoming env = Response message :: later →
  code message ≠ 0%N →
  _synchronized_capture load_screens interactive env
  = Raised (ScreenshotResponseError (code message)).
Proof.
  intros Hack Hin Hcode.
  unfold _synchronized_capture, run_loop.
  set (p0 := timer_start (init interactive TIMEOUT_SECONDS)).
  set (w0 := {| self := p0; result := []; exceptions := []; exited := false |}).
  assert (absorb w0 (grab_full_desktop p0 (ack env)) = w0) as ->.
  { unfold grab_full_desktop, absorb. now rewrite Hack. }
  rewrite Hin. cbn [loop_exec w0 exited self dispatch].
  destruct (got_signal_error_first p0 message Hcode) as [more Hem].
  rewrite loop_exec_exited.
  - unfold conclude, absorb. rewrite Hem. cbn [fold_left].
    destruct (fold_deliver_exceptions more
                (deliver {| self := after (got_signal p0 message);
                            result := result w0; exceptions := exceptions w0;
                            exited := exited w0 |}
                   (on_exception (ScreenshotResponseError (code message)))))
      as [others ->].
    reflexivity.
  - unfold absorb. rewrite Hem. cbn [fold_left].
    apply fold_deliver_exited, deliver_exits.
Qed.

(** X14: a response with a code other than 0, first to arrive at an
    accepted attempt, makes [_synchronized_capture] raise the response
    error with that code, whatever the text of the response holds and
    whatever follows; as the first attempt of [capture] it ends
    [capture] with that error, without a second attempt. *)
Theorem error_response_raises (interactive : bool) (env : attempt)
    (message : signal_message) (later : list event)
    (environ : gmap string string) (polls : list bool) (phase2 : attempt) :
  request_accepted (ack env) = true →
  incoming env = Response message :: later →
  code message ≠ 0%N →
  _synchronized_capture load_screens interactive env
  = Raised (ScreenshotResponseError (code message))
  ∧ capture load_screens environ env polls phase2
    = ([SynchronizedCapture false (sent_call false env)],
       Raised (ScreenshotResponseError (code message))).
Proof.
  intros Hack Hin Hcode. split.
  - now apply (sync_capture_error_response interactive env message later).
  - unfold capture.
    now rewrite (sync_capture_error_response false env message later Hack Hin Hcode).
Qed.

End LoopInvariants.

(** ** [capture] as its caller sees it *)

Section CaptureFacts.
Import DbusPortal.
Context {QImage : Type} (load_screens : string → list QImage).

(** X11: the notice of the second phase is hidden exactly when the
    second attempt was made and returned; after a second timeout, or an
    error of the second attempt, it is left on the screen. *)
Theorem notice_hidden_iff_second_returned (environ : gmap string string)
    (phase1 : attempt) (polls : list bool) (phase2 : attempt) :
  let first := _synchronized_capture load_screens false phase1 in
  let second := _synchronized_capture load_screens true phase2 in
  let sandboxed := truthy (getenv environ "FLATPAK_ID") in
  notice_hidden (capture load_screens environ phase1 polls phase2).1
  = timed_out first && sandboxed && wait_active polls && returned second.
Proof.
  intros first second sandboxed. unfold capture. fold first second sandboxed.
  destruct first as [screens|[]|]; try reflexivity.
  destruct sandboxed; [|reflexivity].
  destruct (wait_active polls); [|reflexivity].
  now destruct second as [screens|[]|].
Qed.


End CaptureFacts.

(** ** The path of the request *)

Section RequestPath.
Import DbusPortal.




End RequestPath.

(** ** Instances of the further properties *)

Section MoreSamples.
Import DbusPortal.



Lemma unreported_response_blocks_witness :
  _synchronized_capture one_screen false
    (accepted_then [Response {| code := 0; text := "cancelled" |}; TimerTimeout])
  = Blocked.
Proof.
  apply (unreported_response_blocks one_screen false
           (accepted_then [Response {| code := 0; text := "cancelled" |};
                           TimerTimeout])
           {| code := 0; text := "cancelled" |} [TimerTimeout]); reflexivity.
Defined.

Lemma error_response_raises_witness :
  capture one_screen flatpak_environ
    (accepted_then [Response {| code := 2; text := response_text tmp_x_png |}])
    [true] (accepted_then [])
  = ([SynchronizedCapture false
        (sent_call false
           (accepted_then
              [Response {| code := 2; text := response_text tmp_x_png |}]))],
     Raised (ScreenshotResponseError 2)).
Proof.
  apply (proj2 (error_response_raises one_screen false
                  (accepted_then
                     [Response {| code := 2; text := response_text tmp_x_png |}])
                  {| code := 2; text := response_text tmp_x_png |} []
                  flatpak_environ [true] (accepted_then [])
                  eq_refl eq_refl ltac:(discriminate))).
Defined.

End MoreSamples.
